(** * PrixFixe: attribute-matrix builder, child-validity tensor and cart
      operations

    A shallow embedding of
    - [src/attributes/matrix_entity_builder.ts] (class [MatrixEntityBuilder]),
    - the rules module that defines [childTensorFactory],
    - [src/cart/interfaces.ts] ([ItemInstance], [Cart], [ICartOps]),
    together with the properties the specification states about them.

    Conventions.
    - TypeScript [number] identifiers ([PID], [AID], [UID], dimension ids)
      are integers, modelled as [Z]; a template literal [`${n}`] is the
      decimal rendering [pretty n].
    - A JavaScript [Map] is an insertion-ordered association list
      ([JSMap]); a plain object used as a dictionary is a [gmap] over
      strings.
    - A method of the builder is a computation in a small state and
      exception monad: it receives the object, and gives back either a
      value or a thrown exception, together with the object as the call
      left it. *)

From stdpp Require Import gmap strings list pretty.

Set Warnings "-register-all".

Local Open Scope string_scope.
Local Open Scope list_scope.
Local Open Scope Z_scope.

(** ** Identifiers *)

Abbreviation PID := Z (only parsing).
Abbreviation AID := Z (only parsing).
Abbreviation DID := Z (only parsing).
Abbreviation UID := Z (only parsing).
Abbreviation KEY := string (only parsing).

(** ** JavaScript [Map<number, number>]

    Iteration follows insertion order; [set] on a key that is present
    keeps the key's position and replaces its value. *)

Module JSMap.

Definition t := list (Z * Z).

Definition empty : t := [].

Fixpoint get (m : t) (k : Z) : option Z :=
  match m with
  | [] => None
  | (k', v) :: rest => if decide (k' = k) then Some v else get rest k
  end.

Definition has (m : t) (k : Z) : bool :=
  match get m k with Some _ => true | None => false end.

Fixpoint set (m : t) (k v : Z) : t :=
  match m with
  | [] => [(k, v)]
  | (k', v') :: rest =>
      if decide (k' = k) then (k, v) :: rest else (k', v') :: set rest k v
  end.

Definition entries (m : t) : list (Z * Z) := m.

Definition keys (m : t) : list Z := fst <$> m.

Definition values (m : t) : list Z := snd <$> m.

End JSMap.

(** ** The attribute table and the matrix

    The classes [Dimension], [Matrix] and [AttributeInfo] are imported by
    the builder from the attributes package; only the parts the builder
    touches are described here. *)

(** Modelled from the spec: [Dimension] (declared in the attributes
    package, outside the builder's file). "An ordered set of mutually
    exclusive AIDs; has a stable numeric id and a fixed cardinality." *)
Record Dimension := mkDimension {
  dimension_id : DID;
  dimension_attributes : list AID
}.

(** Modelled from the spec: [Coordinate], "(dimension,
    position-within-dimension) for one AID". The builder reads
    [coordinate.dimension.id]. *)
Record Coordinate := mkCoordinate {
  dimension : Dimension;
  position : Z
}.

(** Modelled from the spec: [Matrix], "constructed with the total count
    and ordered list of dimensions an entity varies over"; the builder
    constructs the empty one as [new Matrix(0, [])]. *)
Record Matrix := newMatrix {
  matrix_count : Z;
  matrix_dimensions : list Dimension
}.

(** Modelled from the spec: [AttributeInfo], which "exposes
    [getAttributeCoordinates(aid) -> Coordinate|undefined] and
    [getMatrixForEntity(pid) -> Matrix|undefined]". The table is read-only
    once built. *)
Record AttributeInfo := mkAttributeInfo {
  getAttributeCoordinates : AID → option Coordinate;
  getMatrixForEntity : PID → option Matrix
}.

(** Modelled from the spec: [Matrix.hasDimension], the "membership test
    used to classify attributes as used vs unused by a given entity". *)
Definition hasDimension (m : Matrix) (dimensionId : DID) : bool :=
  bool_decide (dimensionId ∈ dimension_id <$> matrix_dimensions m).

Section KeyFormat.

(** The spec leaves the token format open ("exact token format is an
    implementation choice"): the token of a chosen attribute and the
    wildcard marker are parameters of the codec. *)
Variable attributeToken : AttributeInfo → AID → string.
Variable wildcardToken : string.

Definition dimensionToken (dimensionIdToAttribute : JSMap.t)
    (info : AttributeInfo) (d : Dimension) : string :=
  match JSMap.get dimensionIdToAttribute (dimension_id d) with
  | Some aid => attributeToken info aid
  | None => wildcardToken
  end.

(** Modelled from the spec: [Matrix.getKey]. "For each dimension the
    Matrix declares, look up the caller-supplied AID for that dimension
    (absent dimensions are filled with a wildcard marker rather than
    failing); concatenate PID and per-dimension tokens in the Matrix's
    fixed dimension order into the canonical key string." *)
Definition Matrix_getKey (m : Matrix) (pid : PID)
    (dimensionIdToAttribute : JSMap.t) (info : AttributeInfo) : KEY :=
  pretty pid +:+
  String.concat "" (dimensionToken dimensionIdToAttribute info
                      <$> matrix_dimensions m).

End KeyFormat.

(** ** Exceptions and the method monad *)

(** [TypeError message] is what [throw TypeError(message)] raises.
    [UndefinedAccess property] is the engine's own TypeError for reading
    [property] of [undefined]; its message text is engine-specific, so only
    the property name is kept. *)
Inductive exn :=
| TypeError (message : string)
| UndefinedAccess (property : string).

Inductive outcome (A : Type) :=
| Return (a : A)
| Throw (e : exn).
Arguments Return {A} a.
Arguments Throw {A} e.

(** The two fields that change, and the table given to the constructor. *)
Record MatrixEntityBuilder := mkBuilder {
  info : AttributeInfo;
  pid : option PID;
  dimensionIdToAttribute : JSMap.t
}.

(** [new MatrixEntityBuilder(info)] *)
Definition newBuilder (i : AttributeInfo) : MatrixEntityBuilder :=
  {| info := i; pid := None; dimensionIdToAttribute := JSMap.empty |}.

Definition method (A : Type) : Type :=
  MatrixEntityBuilder → outcome A * MatrixEntityBuilder.

#[global] Instance method_ret : MRet method := λ A a this, (Return a, this).

#[global] Instance method_bind : MBind method := λ A B f m this,
  match m this with
  | (Return a, this') => f a this'
  | (Throw e, this') => (Throw e, this')
  end.

Definition throw {A} (e : exn) : method A := λ this, (Throw e, this).

Definition getThis : method MatrixEntityBuilder := λ this, (Return this, this).

(** [this.pid = p] *)
Definition assignPid (p : PID) : method unit := λ this,
  (Return (), {| info := info this; pid := Some p;
                 dimensionIdToAttribute := dimensionIdToAttribute this |}).

(** [this.dimensionIdToAttribute.set(k, v)] *)
Definition mapSet (k v : Z) : method unit := λ this,
  (Return (), {| info := info this; pid := pid this;
                 dimensionIdToAttribute :=
                   JSMap.set (dimensionIdToAttribute this) k v |}).

(** ** [MatrixEntityBuilder] *)

Definition hasPID : method bool :=
  this ← getThis;
  mret (bool_decide (pid this ≠ None)).

Definition overwriteMessage (existing incoming : PID) : string :=
  "attempting to overwrite entity " +:+ pretty existing +:+
  " with " +:+ pretty incoming.

Definition setPID (p : PID) : method bool :=
  this ← getThis;
  match pid this with
  | None => assignPid p;; mret true
  | Some existing => throw (TypeError (overwriteMessage existing p))
  end.

Definition unknownAttributeMessage (attributeID : AID) : string :=
  "unknown attribute " +:+ pretty attributeID +:+ ".".

Definition addAttribute (attributeID : AID) : method bool :=
  this ← getThis;
  match getAttributeCoordinates (info this) attributeID with
  | None => throw (TypeError (unknownAttributeMessage attributeID))
  | Some coordinate =>
      if JSMap.has (dimensionIdToAttribute this)
                   (dimension_id (dimension coordinate))
      then mret false
      else mapSet (dimension_id (dimension coordinate)) attributeID;;
           mret true
  end.

Section BuilderKey.

Variable attributeToken : AttributeInfo → AID → string.
Variable wildcardToken : string.

(** The declaration [const matrix: Matrix = ...] does not check the
    value: when the table has no matrix for the entity, [matrix] is
    [undefined] and [matrix.getKey] is the engine's TypeError. *)
Definition getKey : method KEY :=
  this ← getThis;
  match pid this with
  | None => throw (TypeError "no pid set")
  | Some p =>
      match getMatrixForEntity (info this) p with
      | None => throw (UndefinedAccess "getKey")
      | Some matrix =>
          mret (Matrix_getKey attributeToken wildcardToken matrix p
                  (dimensionIdToAttribute this) (info this))
      end
  end.

End BuilderKey.

(** The body of the [for ... of entries()] loop of [getUnusedAttributes]:
    the attributes it yields, in iteration order. *)
Fixpoint yieldUnused (matrix : Matrix) (entries : list (DID * AID))
    : list AID :=
  match entries with
  | [] => []
  | (did, aid) :: rest =>
      if negb (hasDimension matrix did)
      then aid :: yieldUnused matrix rest
      else yieldUnused matrix rest
  end.

(** The generator is run to exhaustion; the list is the sequence of values
    it yields. *)
Definition getUnusedAttributes : method (list AID) :=
  this ← getThis;
  let matrix : option Matrix :=
    match pid this with
    | Some p => getMatrixForEntity (info this) p
    | None => None
    end in
  let matrix : Matrix :=
    match matrix with
    | Some m => m
    | None => newMatrix 0 []
    end in
  mret (yieldUnused matrix (JSMap.entries (dimensionIdToAttribute this))).

(** ** Histories of mutating calls

    [setPID] and [addAttribute] are the only methods that assign to the
    builder's fields. A history is a sequence of such calls made by a
    caller that catches whatever a call throws and keeps the builder. *)

Inductive call :=
| CallSetPID (p : PID)
| CallAddAttribute (attributeID : AID).

Definition invoke (c : call) : method bool :=
  match c with
  | CallSetPID p => setPID p
  | CallAddAttribute attributeID => addAttribute attributeID
  end.

(** The builder as the calls [cs], made in order, leave it. *)
Fixpoint after (cs : list call) (this : MatrixEntityBuilder)
    : MatrixEntityBuilder :=
  match cs with
  | [] => this
  | c :: rest => after rest (invoke c this).2
  end.

(** The attribute ids for which [addAttribute] answered [true] during the
    calls [cs], in call order: the collected attributes. *)
Fixpoint collected (cs : list call) (this : MatrixEntityBuilder)
    : list AID :=
  match cs with
  | [] => []
  | c :: rest =>
      match c, (invoke c this).1 with
      | CallAddAttribute attributeID, Return true =>
          attributeID :: collected rest (invoke c this).2
      | _, _ => collected rest (invoke c this).2
      end
  end.

(** The dimension id the attribute table gives an attribute. *)
Definition dimensionOf (i : AttributeInfo) (attributeID : AID) : option DID :=
  (λ c, dimension_id (dimension c)) <$> getAttributeCoordinates i attributeID.

(** An attribute is unused by a matrix when the matrix does not declare
    the attribute's dimension. *)
Definition unusedBy (i : AttributeInfo) (matrix : Matrix)
    (attributeID : AID) : bool :=
  match dimensionOf i attributeID with
  | Some did => negb (hasDimension matrix did)
  | None => true
  end.

(** The matrix [getUnusedAttributes] classifies against. *)
Definition resolvedMatrix (this : MatrixEntityBuilder) : Matrix :=
  match pid this ≫= getMatrixForEntity (info this) with
  | Some m => m
  | None => newMatrix 0 []
  end.

(** Every entry of the map pairs an attribute with the dimension the
    attribute table gives it. *)
Definition entriesAgree (this : MatrixEntityBuilder) : Prop :=
  Forall (λ e, dimensionOf (info this) e.2 = Some e.1)
         (JSMap.entries (dimensionIdToAttribute this)).

(** The attribute table holds a matrix for the entity the builder was
    given, if it was given one. *)
Definition matrixRegistered (this : MatrixEntityBuilder) : Prop :=
  ∀ p, pid this = Some p → is_Some (getMatrixForEntity (info this) p).

(** ** A sample catalog

    The scenario of the specification: entity "cone" (PID 1) varies over
    the dimensions size = {small, medium, large} and flavor = {vanilla,
    chocolate}, in that order. Entity 2 has no matrix; entity 3 has a matrix
    without dimensions. *)

Definition small : AID := 10.
Definition medium : AID := 11.
Definition large : AID := 12.
Definition vanilla : AID := 20.
Definition chocolate : AID := 21.

Definition sizeDimension : Dimension := mkDimension 1 [small; medium; large].
Definition flavorDimension : Dimension := mkDimension 2 [vanilla; chocolate].
Definition toppingDimension : Dimension := mkDimension 3 [30; 31].

Definition coneMatrix : Matrix := newMatrix 2 [sizeDimension; flavorDimension].

Fixpoint positionIn (aid : AID) (aids : list AID) (start : Z) : option Z :=
  match aids with
  | [] => None
  | a :: rest => if decide (a = aid) then Some start
                 else positionIn aid rest (start + 1)
  end.

Fixpoint coordinatesIn (dimensions : list Dimension) (aid : AID)
    : option Coordinate :=
  match dimensions with
  | [] => None
  | d :: rest =>
      match positionIn aid (dimension_attributes d) 0 with
      | Some n => Some (mkCoordinate d n)
      | None => coordinatesIn rest aid
      end
  end.

Definition coneInfo : AttributeInfo :=
  {| getAttributeCoordinates :=
       coordinatesIn [sizeDimension; flavorDimension; toppingDimension];
     getMatrixForEntity := λ p,
       if decide (p = 1) then Some coneMatrix
       else if decide (p = 3) then Some (newMatrix 0 [])
       else None |}.

(** One token format: a colon and the attribute's position. *)
Definition positionToken (i : AttributeInfo) (aid : AID) : string :=
  match getAttributeCoordinates i aid with
  | Some c => ":" +:+ pretty (position c)
  | None => ":?"
  end.

Definition digitsToken : string := ":\d+".

(** ** Child-validity tensor *)

(** Modelled from the spec: [RuleConfig], "an ordered sequence of rules,
    each a record [{ partialKey: string, ... }]"; the factory reads
    [ruleSet.rules] and [rule.partialKey] only. *)
Record Rule := mkRule {
  partialKey : string
}.

Record RuleConfig := mkRuleConfig {
  rules : list Rule
}.

Definition ValidChildPredicate : Type := KEY → bool.

(** An object with a string index signature, read as the finite map from
    the keys that hold a predicate to that predicate. The map does not
    keep the order of the object's own keys, nor the prototype that an
    assignment to the key "__proto__" replaces. *)
Abbreviation ValidChildTensor := (gmap string ValidChildPredicate).

(** The arrow function the factory assigns for a rule. *)
Definition installedPredicate (rule : Rule) : ValidChildPredicate :=
  λ child, false.

Definition childTensorFactory (ruleSet : RuleConfig) : ValidChildTensor :=
  foldl (λ childTensor rule,
           <[partialKey rule := installedPredicate rule]> childTensor)
        ∅ (rules ruleSet).

(** ** Cart *)

Inductive ItemInstance := mkItemInstance {
  uid : UID;
  key : KEY;
  quantity : Z;
  children : list ItemInstance
}.

Record Cart := mkCart {
  items : list ItemInstance
}.

Definition uids (cart : Cart) : list UID := uid <$> items cart.

(** Modelled from the spec: [ICartOps.removeFromCart] (the interface
    declares it; the implementing class is not in [interfaces.ts]).
    "Produces a cart with the unique item of matching uid excluded";
    declared as returning "a shallow copy of the cart, omitting the item
    with the same UID as the one passed in". *)
Definition removeFromCart (cart : Cart) (u : UID) : Cart :=
  {| items := List.filter (λ item, negb (bool_decide (uid item = u)))
                          (items cart) |}.

(** ** Sample rules and cart *)

Definition sampleRules : RuleConfig :=
  mkRuleConfig [mkRule "1:*"; mkRule "2:*"; mkRule "1:*"].

Definition sampleItem : ItemInstance := mkItemInstance 7 "1:0:1" 1 [].

Definition sampleCart : Cart :=
  mkCart [mkItemInstance 5 "2" 1 []; sampleItem; mkItemInstance 8 "1:1:0" 2 []].

(** ** What a history amounts to *)

(** The argument of the first [setPID] call of a history. *)
Fixpoint firstPID (cs : list call) : option PID :=
  match cs with
  | [] => None
  | CallSetPID p :: _ => Some p
  | CallAddAttribute _ :: rest => firstPID rest
  end.

(** The first attribute id passed to [addAttribute] in a history that the
    attribute table places in dimension [d]. *)
Fixpoint firstAttribute (i : AttributeInfo) (d : DID) (cs : list call)
    : option AID :=
  match cs with
  | [] => None
  | CallSetPID _ :: rest => firstAttribute i d rest
  | CallAddAttribute a :: rest =>
      if decide (dimensionOf i a = Some d) then Some a
      else firstAttribute i d rest
  end.

(** ** Printing a search result ([printResults] of the cart test script)

    The searches of [CartUtils] return generators over the items they
    find. A generator that has [items] left to yield is the list [items];
    [next()] yields the head, and on an exhausted generator answers
    [{ value: undefined, done: true }] and stays exhausted. [console.log]
    appends a line to the log. *)

Record IteratorResult := mkIteratorResult {
  value : option ItemInstance;
  done : bool
}.

Definition generator : Type := list ItemInstance.

Definition next (gen : generator) : IteratorResult * generator :=
  match gen with
  | [] => (mkIteratorResult None true, [])
  | item :: rest => (mkIteratorResult (Some item) false, rest)
  end.

Inductive logged :=
| LogText (text : string)
| LogValue (v : option ItemInstance).

(** One turn of the [while (!done)] loop: two log lines and two calls of
    [gen.next()]; the first call's value is printed, the second call's
    [done] is kept. *)
Definition printTurn (gen : generator) (console : list logged)
    : bool * generator * list logged :=
  let console := console ++ [LogText "NEXT VALUE:"] in
  let '(shown, gen) := next gen in
  let console := console ++ [LogValue (value shown)] in
  let '(probed, gen) := next gen in
  (done probed, gen, console).

(** The loop, for at most [fuel] turns; [None] when the turns run out
    before [done] is set. *)
Fixpoint printLoop (fuel : nat) (isDone : bool) (gen : generator)
    (console : list logged) : option (generator * list logged) :=
  if isDone then Some (gen, console)
  else match fuel with
       | O => None
       | S fuel' =>
           let '(isDone', gen', console') := printTurn gen console in
           printLoop fuel' isDone' gen' console'
       end.

Definition printResults (fuel : nat) (gen : generator)
    : option (generator * list logged) :=
  printLoop fuel false gen [].

(** The values among the lines of a log, in order. *)
Fixpoint loggedValues (console : list logged) : list (option ItemInstance) :=
  match console with
  | [] => []
  | LogText _ :: rest => loggedValues rest
  | LogValue v :: rest => v :: loggedValues rest
  end.

(** The items among logged values ([undefined] left out). *)
Definition printedItems (console : list logged) : list ItemInstance :=
  omap id (loggedValues console).

(** The items at positions 0, 2, 4, ... of a list. *)
Fixpoint evenPositions {A : Type} (l : list A) : list A :=
  match l with
  | [] => []
  | a :: rest =>
      a :: match rest with
           | [] => []
           | _ :: rest' => evenPositions rest'
           end
  end.

(** * Properties *)

(** ** The map *)

Lemma JSMap_has_get (m : JSMap.t) (k : Z) :
  JSMap.has m k = false ↔ JSMap.get m k = None.
Proof. unfold JSMap.has. destruct (JSMap.get m k); naive_solver. Qed.

Lemma JSMap_get_set_eq (m : JSMap.t) (k v : Z) :
  JSMap.get (JSMap.set m k v) k = Some v.
Proof.
  induction m as [|[k' v'] rest IH]; simpl.
  - by rewrite decide_True.
  - destruct (decide (k' = k)) as [->|Hne]; simpl.
    + by rewrite decide_True.
    + by rewrite decide_False.
Qed.

Lemma JSMap_get_set_ne (m : JSMap.t) (k k' v : Z) :
  k ≠ k' → JSMap.get (JSMap.set m k v) k' = JSMap.get m k'.
Proof.
  intros Hne. induction m as [|[k0 v0] rest IH]; simpl.
  - by rewrite decide_False.
  - destruct (decide (k0 = k)) as [->|Hne0]; simpl.
    + by rewrite !decide_False.
    + destruct (decide (k0 = k')); [done | apply IH].
Qed.

(** Setting a key that is not there appends the entry: insertion order. *)
Lemma JSMap_set_fresh (m : JSMap.t) (k v : Z) :
  JSMap.has m k = false → JSMap.set m k v = m ++ [(k, v)].
Proof.
  rewrite JSMap_has_get.
  induction m as [|[k' v'] rest IH]; simpl; [done|].
  destruct (decide (k' = k)); [done|]. intros H. by rewrite IH.
Qed.

(** ** Single calls *)

Lemma setPID_fresh (this : MatrixEntityBuilder) (p : PID) :
  pid this = None →
  setPID p this =
    (Return true, {| info := info this; pid := Some p;
                     dimensionIdToAttribute := dimensionIdToAttribute this |}).
Proof. intros H. unfold setPID, mbind, method_bind, getThis. by rewrite H. Qed.

Lemma setPID_taken (this : MatrixEntityBuilder) (existing p : PID) :
  pid this = Some existing →
  setPID p this = (Throw (TypeError (overwriteMessage existing p)), this).
Proof. intros H. unfold setPID, mbind, method_bind, getThis. by rewrite H. Qed.

Lemma addAttribute_unknown (this : MatrixEntityBuilder) (a : AID) :
  getAttributeCoordinates (info this) a = None →
  addAttribute a this = (Throw (TypeError (unknownAttributeMessage a)), this).
Proof.
  intros H. unfold addAttribute, mbind, method_bind, getThis. by rewrite H.
Qed.

Lemma addAttribute_filled (this : MatrixEntityBuilder) (a : AID) c :
  getAttributeCoordinates (info this) a = Some c →
  JSMap.has (dimensionIdToAttribute this) (dimension_id (dimension c)) = true →
  addAttribute a this = (Return false, this).
Proof.
  intros H Hhas. unfold addAttribute, mbind, method_bind, getThis.
  by rewrite H, Hhas.
Qed.

Lemma addAttribute_free (this : MatrixEntityBuilder) (a : AID) c :
  getAttributeCoordinates (info this) a = Some c →
  JSMap.has (dimensionIdToAttribute this) (dimension_id (dimension c)) = false →
  addAttribute a this =
    (Return true,
     {| info := info this; pid := pid this;
        dimensionIdToAttribute :=
          dimensionIdToAttribute this ++ [(dimension_id (dimension c), a)] |}).
Proof.
  intros H Hhas. unfold addAttribute, mbind, method_bind, getThis.
  rewrite H, Hhas. unfold mapSet. simpl. by rewrite JSMap_set_fresh.
Qed.

(** Case analysis of one call, for the inductions over histories: the
    call leaves the builder as it was (and, if it is [addAttribute], did
    not answer [true]), or it is the [setPID] that sets the entity, or it
    is an [addAttribute] that appends an entry. *)
Lemma invoke_cases (c : call) (this : MatrixEntityBuilder) :
  ((invoke c this).2 = this ∧
   ∀ a, c = CallAddAttribute a → (invoke c this).1 ≠ Return true) ∨
  (∃ p, c = CallSetPID p ∧ pid this = None ∧
        (invoke c this).2 =
          {| info := info this; pid := Some p;
             dimensionIdToAttribute := dimensionIdToAttribute this |}) ∨
  (∃ a co, c = CallAddAttribute a ∧
        getAttributeCoordinates (info this) a = Some co ∧
        JSMap.has (dimensionIdToAttribute this)
                  (dimension_id (dimension co)) = false ∧
        (invoke c this).1 = Return true ∧
        (invoke c this).2 =
          {| info := info this; pid := pid this;
             dimensionIdToAttribute :=
               dimensionIdToAttribute this
                 ++ [(dimension_id (dimension co), a)] |}).
Proof.
  destruct c as [p|a]; simpl.
  - destruct (pid this) as [existing|] eqn:Hp.
    + left. by rewrite (setPID_taken _ existing).
    + right; left. exists p. by rewrite setPID_fresh.
  - destruct (getAttributeCoordinates (info this) a) as [co|] eqn:Hc.
    + destruct (JSMap.has (dimensionIdToAttribute this)
                  (dimension_id (dimension co))) eqn:Hhas.
      * left. by rewrite (addAttribute_filled _ _ co).
      * right; right. exists a, co. by rewrite (addAttribute_free _ _ co).
    + left. by rewrite addAttribute_unknown.
Qed.

(** ** Histories *)

Lemma after_app (cs1 cs2 : list call) (this : MatrixEntityBuilder) :
  after (cs1 ++ cs2) this = after cs2 (after cs1 this).
Proof. revert this. induction cs1 as [|c cs1 IH]; intros; simpl; auto. Qed.

Lemma invoke_info (c : call) (this : MatrixEntityBuilder) :
  info (invoke c this).2 = info this.
Proof.
  destruct (invoke_cases c this) as [[-> _]|[(p & _ & _ & ->)|(a & co & _ & _ & _ & _ & ->)]];
    done.
Qed.

Lemma after_info (cs : list call) (this : MatrixEntityBuilder) :
  info (after cs this) = info this.
Proof.
  revert this. induction cs as [|c cs IH]; intros; simpl; [done|].
  by rewrite IH, invoke_info.
Qed.

(** Once set, the entity id stays what it is. *)
Lemma invoke_pid_kept (c : call) (this : MatrixEntityBuilder) (p : PID) :
  pid this = Some p → pid (invoke c this).2 = Some p.
Proof.
  intros Hp.
  destruct (invoke_cases c this) as [[-> _]|[(q & _ & Hn & _)|(a & co & _ & _ & _ & _ & ->)]];
    [done | congruence | done].
Qed.

Lemma after_pid_kept (cs : list call) (this : MatrixEntityBuilder) (p : PID) :
  pid this = Some p → pid (after cs this) = Some p.
Proof.
  revert this. induction cs as [|c cs IH]; intros this Hp; simpl; [done|].
  by apply IH, invoke_pid_kept.
Qed.

(** Once a dimension holds an attribute, it keeps that attribute. *)
Lemma invoke_get_kept (c : call) (this : MatrixEntityBuilder) (d : DID) (a : AID) :
  JSMap.get (dimensionIdToAttribute this) d = Some a →
  JSMap.get (dimensionIdToAttribute (invoke c this).2) d = Some a.
Proof.
  intros Hget.
  destruct (invoke_cases c this)
    as [[-> _]|[(q & _ & _ & ->)|(a' & co & _ & _ & Hhas & _ & ->)]];
    [done | done |]. simpl.
  rewrite <-JSMap_set_fresh by done.
  rewrite JSMap_get_set_ne; [done|].
  intros <-. apply JSMap_has_get in Hhas. congruence.
Qed.

Lemma after_get_kept (cs : list call) (this : MatrixEntityBuilder) (d : DID) (a : AID) :
  JSMap.get (dimensionIdToAttribute this) d = Some a →
  JSMap.get (dimensionIdToAttribute (after cs this)) d = Some a.
Proof.
  revert this. induction cs as [|c cs IH]; intros this Hget; simpl; [done|].
  by apply IH, invoke_get_kept.
Qed.

(** [addAttribute] never touches the entity id. *)
Lemma after_adds_pid (aids : list AID) (this : MatrixEntityBuilder) :
  pid (after (CallAddAttribute <$> aids) this) = pid this.
Proof.
  revert this. induction aids as [|a aids IH]; intros this; simpl; [done|].
  rewrite IH. change (addAttribute a this) with (invoke (CallAddAttribute a) this).
  destruct (invoke_cases (CallAddAttribute a) this)
    as [[-> _]|[(q & ? & _)|(a' & co & _ & _ & _ & _ & ->)]]; done.
Qed.

(** The entity id is unset exactly as long as [setPID] was never called. *)
Lemma after_pid_None (cs : list call) (this : MatrixEntityBuilder) :
  pid (after cs this) = None ↔
  pid this = None ∧ ∀ p, CallSetPID p ∉ cs.
Proof.
  revert this. induction cs as [|c cs IH]; intros this; simpl.
  - split; [|by intros [? _]]. intros H; split; [done|]. intros p.
    apply not_elem_of_nil.
  - rewrite IH.
    destruct (invoke_cases c this)
      as [[Hsame _]|[(q & -> & Hn & Hst)|(a' & co & -> & _ & _ & _ & Hst)]].
    + rewrite Hsame. split.
      * intros [Hp Hcs]. split; [done|].
        intros p [<-|Hin]%elem_of_cons; [|by apply (Hcs p)].
        simpl in Hsame. rewrite (setPID_fresh _ _ Hp) in Hsame.
        simpl in Hsame. rewrite <-Hsame in Hp. done.
      * intros [Hp Hcs]. split; [done|]. intros p Hin.
        apply (Hcs p). by apply elem_of_cons; right.
    + rewrite Hst; simpl. split; [by intros [? _]|].
      intros [_ Hcs]. destruct (Hcs q). by apply elem_of_cons; left.
    + rewrite Hst; simpl. split.
      * intros [Hp Hcs]. split; [done|].
        intros p [?|Hin]%elem_of_cons; [done|by apply (Hcs p)].
      * intros [Hp Hcs]. split; [done|]. intros p Hin.
        apply (Hcs p). by apply elem_of_cons; right.
Qed.

Lemma invoke_entriesAgree (c : call) (this : MatrixEntityBuilder) :
  entriesAgree this → entriesAgree (invoke c this).2.
Proof.
  intros Hagree.
  destruct (invoke_cases c this)
    as [[-> _]|[(q & _ & _ & ->)|(a & co & _ & Hco & _ & _ & ->)]];
    [done | done |].
  unfold entriesAgree, JSMap.entries in *; simpl.
  apply Forall_app; split; [done|].
  apply Forall_singleton; simpl. unfold dimensionOf. by rewrite Hco.
Qed.

(** The values of the map are the collected attributes, in call order. *)
Lemma after_collected (cs : list call) (this : MatrixEntityBuilder) :
  JSMap.values (dimensionIdToAttribute (after cs this)) =
  JSMap.values (dimensionIdToAttribute this) ++ collected cs this.
Proof.
  revert this. induction cs as [|c cs IH]; intros this; simpl.
  - by rewrite app_nil_r.
  - rewrite IH.
    destruct (invoke_cases c this)
      as [[Hsame Hno]|[(q & -> & _ & Hst)|(a & co & -> & _ & _ & Hres & Hst)]].
    + rewrite Hsame. destruct c as [q|a]; [done|].
      specialize (Hno a eq_refl).
      change (addAttribute a this) with (invoke (CallAddAttribute a) this).
      by destruct (invoke (CallAddAttribute a) this).1 as [[]|].
    + by rewrite Hst.
    + change (addAttribute a this) with (invoke (CallAddAttribute a) this).
      rewrite Hres, Hst. unfold JSMap.values; simpl.
      by rewrite fmap_app, <-app_assoc.
Qed.

Lemma after_entriesAgree (cs : list call) (this : MatrixEntityBuilder) :
  entriesAgree this → entriesAgree (after cs this).
Proof.
  revert this. induction cs as [|c cs IH]; intros this H; simpl; [done|].
  by apply IH, invoke_entriesAgree.
Qed.

(** On consistent entries the loop keeps exactly the attributes whose own
    dimension the matrix does not declare. *)
Lemma yieldUnused_filter (i : AttributeInfo) (matrix : Matrix)
    (entries : list (DID * AID)) :
  Forall (λ e, dimensionOf i e.2 = Some e.1) entries →
  yieldUnused matrix entries = List.filter (unusedBy i matrix) (snd <$> entries).
Proof.
  induction 1 as [|[did aid] rest Hhd _ IH]; simpl in *; [done|].
  unfold unusedBy at 1. rewrite Hhd, IH.
  by destruct (negb (hasDimension matrix did)).
Qed.

Lemma hasDimension_empty (count : Z) (did : DID) :
  hasDimension (newMatrix count []) did = false.
Proof. done. Qed.

Lemma yieldUnused_empty (count : Z) (entries : list (DID * AID)) :
  yieldUnused (newMatrix count []) entries = snd <$> entries.
Proof. induction entries as [|[did aid] rest IH]; simpl; [done|]. by rewrite IH. Qed.

Lemma getUnusedAttributes_eq (this : MatrixEntityBuilder) :
  getUnusedAttributes this =
    (Return (yieldUnused (resolvedMatrix this)
               (JSMap.entries (dimensionIdToAttribute this))), this).
Proof.
  unfold getUnusedAttributes, resolvedMatrix, mbind, method_bind, getThis; simpl.
  by destruct (pid this).
Qed.

(** ** Claims about [MatrixEntityBuilder] *)

Example cone_key :
  Matrix_getKey positionToken digitsToken coneMatrix 1
    [(1, small); (2, chocolate)] coneInfo = "1:0:1".
Proof. reflexivity. Qed.

Example cone_regex_key :
  Matrix_getKey positionToken digitsToken coneMatrix 1
    [(2, chocolate)] coneInfo = "1:\d+:1".
Proof. reflexivity. Qed.

(** C1. [addAttribute(A)]: when the attribute table has no coordinate for
    [A] the call throws the "unknown attribute" TypeError; when the
    builder already holds an attribute for [A]'s dimension the call
    answers [false] and the builder (entity id and dimension-to-attribute
    map) is what it was; otherwise the call answers [true], the entry
    [(dimension, A)] is appended to the map, every other dimension reads as
    before, and no later call changes what the dimension holds
    (first writer wins). *)
Theorem addAttribute_first_writer_wins (this : MatrixEntityBuilder) (A : AID) :
  (getAttributeCoordinates (info this) A = None →
     addAttribute A this =
       (Throw (TypeError ("unknown attribute " +:+ pretty A +:+ ".")), this)) ∧
  (∀ c, getAttributeCoordinates (info this) A = Some c →
     JSMap.has (dimensionIdToAttribute this)
               (dimension_id (dimension c)) = true →
     addAttribute A this = (Return false, this)) ∧
  (∀ c, getAttributeCoordinates (info this) A = Some c →
     JSMap.has (dimensionIdToAttribute this)
               (dimension_id (dimension c)) = false →
     ∃ this',
       addAttribute A this = (Return true, this') ∧
       info this' = info this ∧ pid this' = pid this ∧
       JSMap.entries (dimensionIdToAttribute this') =
         JSMap.entries (dimensionIdToAttribute this)
           ++ [(dimension_id (dimension c), A)] ∧
       JSMap.get (dimensionIdToAttribute this')
                 (dimension_id (dimension c)) = Some A ∧
       (∀ d, d ≠ dimension_id (dimension c) →
          JSMap.get (dimensionIdToAttribute this') d =
          JSMap.get (dimensionIdToAttribute this) d) ∧
       (∀ cs, JSMap.get (dimensionIdToAttribute (after cs this'))
                        (dimension_id (dimension c)) = Some A)).
Proof.
  split; [apply addAttribute_unknown|].
  split; [intros c; apply addAttribute_filled|].
  intros c Hc Hhas. eexists. split; [by apply addAttribute_free|]. simpl.
  assert (JSMap.get (dimensionIdToAttribute this
                       ++ [(dimension_id (dimension c), A)])
                    (dimension_id (dimension c)) = Some A) as Hget.
  { rewrite <-(JSMap_set_fresh _ _ A Hhas). apply JSMap_get_set_eq. }
  split_and!; try done.
  - intros d Hd. rewrite <-(JSMap_set_fresh _ _ A Hhas).
    by apply JSMap_get_set_ne.
  - intros cs. by apply after_get_kept.
Qed.

Lemma addAttribute_first_writer_wins_witness :
  addAttribute 99 (newBuilder coneInfo) =
    (Throw (TypeError "unknown attribute 99."), newBuilder coneInfo) ∧
  addAttribute medium (after [CallAddAttribute small] (newBuilder coneInfo)) =
    (Return false, after [CallAddAttribute small] (newBuilder coneInfo)) ∧
  ∃ this', addAttribute small (newBuilder coneInfo) = (Return true, this') ∧
           JSMap.get (dimensionIdToAttribute
                        (after [CallAddAttribute large] this')) 1 = Some small.
Proof.
  split; [|split].
  - apply (addAttribute_first_writer_wins (newBuilder coneInfo) 99).
    reflexivity.
  - apply (addAttribute_first_writer_wins
             (after [CallAddAttribute small] (newBuilder coneInfo)) medium)
      with (c := mkCoordinate sizeDimension 1); reflexivity.
  - destruct (addAttribute_first_writer_wins (newBuilder coneInfo) small)
      as (_ & _ & H).
    destruct (H (mkCoordinate sizeDimension 0) eq_refl eq_refl)
      as (this' & Hcall & _ & _ & _ & _ & _ & Hkept).
    exists this'. split; [exact Hcall | exact (Hkept [CallAddAttribute large])].
Defined.

(** C2. On a builder on which [setPID] was not called before, [setPID(p)]
    answers [true] and stores [p]; from then on, whatever calls come in
    between, every [setPID(q)] throws the TypeError whose message names the
    stored [p] and the incoming [q], and leaves the builder as it is. The
    same holds when [q] is [p]. *)
Theorem setPID_only_once (i : AttributeInfo) (aids : list AID) (p : PID)
    (cs : list call) (q : PID) :
  let unset := after (CallAddAttribute <$> aids) (newBuilder i) in
  let set := (setPID p unset).2 in
  (setPID p unset).1 = Return true ∧
  pid set = Some p ∧
  setPID q (after cs set) =
    (Throw (TypeError ("attempting to overwrite entity " +:+ pretty p +:+
                       " with " +:+ pretty q)),
     after cs set) ∧
  setPID p set =
    (Throw (TypeError ("attempting to overwrite entity " +:+ pretty p +:+
                       " with " +:+ pretty p)),
     set).
Proof.
  intros unset set.
  assert (pid unset = None) as Hunset by apply after_adds_pid.
  assert (pid set = Some p) as Hset.
  { unfold set. by rewrite (setPID_fresh _ _ Hunset). }
  split_and!.
  - by rewrite (setPID_fresh _ _ Hunset).
  - done.
  - apply setPID_taken. by apply after_pid_kept.
  - by apply setPID_taken.
Qed.

Lemma setPID_only_once_witness :
  setPID 1 (after [CallAddAttribute small; CallSetPID 1; CallAddAttribute vanilla]
                  (newBuilder coneInfo)) =
    (Throw (TypeError "attempting to overwrite entity 1 with 1"),
     after [CallAddAttribute small; CallSetPID 1; CallAddAttribute vanilla]
           (newBuilder coneInfo)).
Proof.
  exact (proj1 (proj2 (proj2
    (setPID_only_once coneInfo [small] 1 [CallAddAttribute vanilla] 1)))).
Defined.

(** C10. A throwing call leaves the builder untouched: when [setPID]
    throws on overwrite, or [addAttribute] throws on an unknown attribute
    id, the builder after the call, entity id and dimension-to-attribute
    map alike, is the builder before it. *)
Theorem failing_call_is_atomic (c : call) (this this' : MatrixEntityBuilder)
    (e : exn) :
  invoke c this = (Throw e, this') → this' = this.
Proof.
  destruct c as [p|a]; simpl.
  - unfold setPID, mbind, method_bind, getThis.
    destruct (pid this); simpl; [|done]. unfold throw. congruence.
  - unfold addAttribute, mbind, method_bind, getThis.
    destruct (getAttributeCoordinates (info this) a) as [co|];
      [|unfold throw; congruence].
    by destruct (JSMap.has _ _).
Qed.

Lemma failing_call_is_atomic_witness :
  (setPID 2 (after [CallAddAttribute small; CallSetPID 1] (newBuilder coneInfo))).2
    = after [CallAddAttribute small; CallSetPID 1] (newBuilder coneInfo) ∧
  (addAttribute 99 (after [CallAddAttribute small] (newBuilder coneInfo))).2
    = after [CallAddAttribute small] (newBuilder coneInfo).
Proof.
  split.
  - apply (failing_call_is_atomic (CallSetPID 2) _ _
             (TypeError "attempting to overwrite entity 1 with 2")).
    reflexivity.
  - apply (failing_call_is_atomic (CallAddAttribute 99) _ _
             (TypeError "unknown attribute 99.")).
    reflexivity.
Defined.

Lemma append_empty_r (s : string) : s +:+ "" = s.
Proof.
  induction s as [|a s IH]; [done|].
  change (String a (s +:+ "") = String a s). by rewrite IH.
Qed.

Section GetKey.

Variable tok : AttributeInfo → AID → string.
Variable wild : string.

Lemma getKey_unset (this : MatrixEntityBuilder) :
  pid this = None → getKey tok wild this = (Throw (TypeError "no pid set"), this).
Proof. intros H. unfold getKey, mbind, method_bind, getThis. by rewrite H. Qed.

Lemma getKey_no_matrix (this : MatrixEntityBuilder) (p : PID) :
  pid this = Some p → getMatrixForEntity (info this) p = None →
  getKey tok wild this = (Throw (UndefinedAccess "getKey"), this).
Proof.
  intros H Hm. unfold getKey, mbind, method_bind, getThis. by rewrite H, Hm.
Qed.

Lemma getKey_matrix (this : MatrixEntityBuilder) (p : PID) (m : Matrix) :
  pid this = Some p → getMatrixForEntity (info this) p = Some m →
  getKey tok wild this =
    (Return (Matrix_getKey tok wild m p (dimensionIdToAttribute this) (info this)), this).
Proof.
  intros H Hm. unfold getKey, mbind, method_bind, getThis. by rewrite H, Hm.
Qed.

Lemma getKey_unset_iff (this : MatrixEntityBuilder) :
  getKey tok wild this = (Throw (TypeError "no pid set"), this) ↔ pid this = None.
Proof.
  split; [|apply getKey_unset].
  destruct (pid this) as [p|] eqn:Hp; [|done].
  destruct (getMatrixForEntity (info this) p) as [m|] eqn:Hm.
  - by rewrite (getKey_matrix _ p m).
  - by rewrite (getKey_no_matrix _ p).
Qed.

(** A matrix without dimensions encodes the bare PID. *)
Lemma Matrix_getKey_no_dimensions (m : Matrix) (p : PID) (assignment : JSMap.t)
    (i : AttributeInfo) :
  matrix_dimensions m = [] → Matrix_getKey tok wild m p assignment i = pretty p.
Proof.
  intros H. unfold Matrix_getKey. rewrite H. apply append_empty_r.
Qed.

(** C9. [getKey] gives a key or the "no pid set" TypeError exactly when the
    attribute table holds a matrix for the entity id that is set (or none
    is set). When an entity id is set and [getMatrixForEntity] gives no
    matrix, the call reads [getKey] of [undefined]: what is thrown is the
    engine's TypeError, not an error of the builder. *)
Theorem getKey_total_only_with_matrix (this : MatrixEntityBuilder) :
  (((∃ k, getKey tok wild this = (Return k, this)) ∨
    getKey tok wild this = (Throw (TypeError "no pid set"), this))
   ↔ matrixRegistered this) ∧
  (∀ p, pid this = Some p → getMatrixForEntity (info this) p = None →
        getKey tok wild this = (Throw (UndefinedAccess "getKey"), this)).
Proof.
  split; [|apply getKey_no_matrix].
  unfold matrixRegistered. split.
  - intros Hres p Hp.
    destruct (getMatrixForEntity (info this) p) as [m|] eqn:Hm; [by eexists|].
    rewrite (getKey_no_matrix _ p Hp Hm) in Hres.
    by destruct Hres as [[k ?]|?].
  - intros Hreg. destruct (pid this) as [p|] eqn:Hp.
    + destruct (Hreg p eq_refl) as [m Hm]. left. eexists.
      by apply (getKey_matrix _ p m).
    + right. by apply getKey_unset.
Qed.

(** [getKey] on a registered entity. [getKey] throws the "no pid set"
    TypeError exactly when [setPID] was never called on the builder. When
    an entity id is set and the attribute table holds a matrix for it,
    [getKey] returns the key that matrix produces from the builder's
    dimension-to-attribute map; if that matrix has no dimensions the key is
    the bare PID. *)
Theorem getKey_of_resolved_matrix (i : AttributeInfo) (cs : list call) :
  let this := after cs (newBuilder i) in
  (getKey tok wild this = (Throw (TypeError "no pid set"), this)
   ↔ ∀ p, CallSetPID p ∉ cs) ∧
  (∀ p m, pid this = Some p → getMatrixForEntity i p = Some m →
     getKey tok wild this =
       (Return (Matrix_getKey tok wild m p (dimensionIdToAttribute this) i), this) ∧
     (matrix_dimensions m = [] → getKey tok wild this = (Return (pretty p), this))).
Proof.
  intros this. split.
  - rewrite getKey_unset_iff. unfold this. rewrite after_pid_None.
    simpl. split; [by intros [_ ?] | by intros ?; split].
  - intros p m Hp Hm.
    assert (info this = i) as Hi by apply after_info.
    pose proof (getKey_matrix this p m Hp) as Hk. rewrite Hi in Hk.
    specialize (Hk Hm).
    split; [done|]. intros Hd. rewrite Hk.
    by rewrite Matrix_getKey_no_dimensions.
Qed.

End GetKey.

Lemma getKey_total_only_with_matrix_witness :
  getKey positionToken digitsToken
         (after [CallSetPID 2] (newBuilder coneInfo)) =
    (Throw (UndefinedAccess "getKey"), after [CallSetPID 2] (newBuilder coneInfo)) ∧
  matrixRegistered (after [CallSetPID 1] (newBuilder coneInfo)).
Proof.
  split.
  - apply (getKey_total_only_with_matrix positionToken digitsToken
             (after [CallSetPID 2] (newBuilder coneInfo))) with (p := 2);
      reflexivity.
  - apply (getKey_total_only_with_matrix positionToken digitsToken
             (after [CallSetPID 1] (newBuilder coneInfo))).
    left. eexists. reflexivity.
Defined.

(** C3. The claim promises a key whenever a PID is set; the code does not
    keep it. With entity 2 set, for which the table holds no matrix,
    [getKey] reads [getKey] of [undefined]: it returns no key and throws
    the engine's TypeError, not an error of the builder. On the same
    builder the sibling [getUnusedAttributes] replaces the missing matrix
    by an empty one and returns. *)
Lemma getKey_pid_set_without_matrix :
  let this := after [CallSetPID 2; CallAddAttribute small] (newBuilder coneInfo) in
  pid this = Some 2 ∧
  getMatrixForEntity (info this) 2 = None ∧
  getKey positionToken digitsToken this =
    (Throw (UndefinedAccess "getKey"), this) ∧
  (¬ ∃ k, (getKey positionToken digitsToken this).1 = Return k) ∧
  getUnusedAttributes this = (Return [small], this).
Proof.
  split_and!; try reflexivity. intros [k Hk]. discriminate Hk.
Qed.

Lemma getKey_of_resolved_matrix_witness :
  getKey positionToken digitsToken
    (after [CallAddAttribute small; CallSetPID 1; CallAddAttribute chocolate]
           (newBuilder coneInfo)) =
    (Return "1:0:1",
     after [CallAddAttribute small; CallSetPID 1; CallAddAttribute chocolate]
           (newBuilder coneInfo)) ∧
  getKey positionToken digitsToken
    (after [CallAddAttribute small; CallSetPID 3] (newBuilder coneInfo)) =
    (Return "3", after [CallAddAttribute small; CallSetPID 3] (newBuilder coneInfo)).
Proof.
  split.
  - destruct (getKey_of_resolved_matrix positionToken digitsToken coneInfo
      [CallAddAttribute small; CallSetPID 1; CallAddAttribute chocolate])
      as [_ H].
    destruct (H 1 coneMatrix eq_refl eq_refl) as [Hkey _]. exact Hkey.
  - destruct (getKey_of_resolved_matrix positionToken digitsToken coneInfo
      [CallAddAttribute small; CallSetPID 3]) as [_ H].
    destruct (H 3 (newMatrix 0 []) eq_refl eq_refl) as [_ Hbare].
    exact (Hbare eq_refl).
Defined.

(** C6. [getUnusedAttributes()] yields the collected attribute ids whose
    dimension (as the attribute table gives it) is not declared by the
    matrix of the builder's entity, in the order they were collected;
    every collected attribute id has a dimension. When no entity id is set,
    or the table holds no matrix for it, all collected attribute ids are
    yielded, in collection order. The builder is left as it is. *)
Theorem getUnusedAttributes_collection_order (i : AttributeInfo)
    (cs : list call) :
  let this := after cs (newBuilder i) in
  getUnusedAttributes this =
    (Return (List.filter (unusedBy i (resolvedMatrix this))
                         (collected cs (newBuilder i))), this) ∧
  Forall (λ a, is_Some (dimensionOf i a)) (collected cs (newBuilder i)) ∧
  (pid this = None ∨
   (∃ p, pid this = Some p ∧ getMatrixForEntity i p = None) →
   getUnusedAttributes this = (Return (collected cs (newBuilder i)), this)).
Proof.
  intros this.
  assert (info this = i) as Hi by apply after_info.
  assert (entriesAgree this) as Hagree.
  { apply after_entriesAgree. by apply Forall_nil. }
  assert (snd <$> JSMap.entries (dimensionIdToAttribute this)
          = collected cs (newBuilder i)) as Hvalues.
  { apply (after_collected cs (newBuilder i)). }
  unfold entriesAgree in Hagree. rewrite Hi in Hagree.
  rewrite getUnusedAttributes_eq. split_and!.
  - by rewrite (yieldUnused_filter i), Hvalues.
  - rewrite <-Hvalues. apply Forall_fmap.
    eapply Forall_impl; [exact Hagree|]. intros [d a] Hd; simpl in *.
    by rewrite Hd.
  - intros Hnone.
    assert (resolvedMatrix this = newMatrix 0 []) as ->.
    { unfold resolvedMatrix. rewrite Hi.
      destruct Hnone as [->|(p & -> & Hm)]; simpl; [done|by rewrite Hm]. }
    by rewrite yieldUnused_empty, Hvalues.
Qed.

Lemma getUnusedAttributes_collection_order_witness :
  getUnusedAttributes
    (after [CallAddAttribute 31; CallAddAttribute chocolate;
            CallAddAttribute 30; CallAddAttribute small]
           (newBuilder coneInfo)) =
    (Return [31; chocolate; small],
     after [CallAddAttribute 31; CallAddAttribute chocolate;
            CallAddAttribute 30; CallAddAttribute small]
           (newBuilder coneInfo)).
Proof.
  destruct (getUnusedAttributes_collection_order coneInfo
    [CallAddAttribute 31; CallAddAttribute chocolate;
     CallAddAttribute 30; CallAddAttribute small]) as (_ & _ & H).
  apply H. left. reflexivity.
Defined.

Example unused_of_cone :
  (getUnusedAttributes
     (after [CallAddAttribute 31; CallAddAttribute chocolate; CallSetPID 1;
             CallAddAttribute 30; CallAddAttribute small]
            (newBuilder coneInfo))).1 = Return [31].
Proof. reflexivity. Qed.

(** ** Claims about the child-validity tensor *)

Lemma childTensor_lookup (rs : list Rule) (acc : gmap string ValidChildPredicate)
    (k : string) :
  foldl (λ childTensor rule,
           <[partialKey rule := installedPredicate rule]> childTensor) acc rs
    !! k
  = if bool_decide (k ∈ partialKey <$> rs) then Some (λ _, false)
    else acc !! k.
Proof.
  revert acc. induction rs as [|rule rs IH]; intros acc; [done|].
  rewrite fmap_cons. cbn [foldl].
  - rewrite IH. destruct (decide (k ∈ partialKey <$> rs)) as [Hin|Hout].
    + rewrite !bool_decide_eq_true_2; [done| |done]. by right.
    + rewrite (bool_decide_eq_false_2 _ Hout).
      destruct (decide (partialKey rule = k)) as [<-|Hne].
      * rewrite lookup_insert_eq, bool_decide_eq_true_2; [done|]. by left.
      * rewrite lookup_insert_ne by done.
        rewrite bool_decide_eq_false_2; [done|].
        intros [?|?]%elem_of_cons; naive_solver.
Qed.

Lemma childTensorFactory_lookup (ruleSet : RuleConfig) (k : string) :
  childTensorFactory ruleSet !! k =
  if bool_decide (k ∈ partialKey <$> rules ruleSet) then Some (λ _, false)
  else None.
Proof. unfold childTensorFactory. by rewrite childTensor_lookup. Qed.



(** ** Claims about the cart *)

Lemma filter_absent_uid (l : list ItemInstance) (u : UID) :
  u ∉ (uid <$> l) →
  List.filter (λ item, negb (bool_decide (uid item = u))) l = l.
Proof.
  induction l as [|item l IH]; [done|].
  rewrite fmap_cons, not_elem_of_cons. intros [Hne Hout]. simpl.
  rewrite bool_decide_eq_false_2 by done. simpl.
  by rewrite IH.
Qed.

Lemma filter_uid_gone (l : list ItemInstance) (u : UID) :
  u ∉ (uid <$> List.filter (λ item, negb (bool_decide (uid item = u))) l).
Proof.
  induction l as [|item l IH]; simpl; [apply not_elem_of_nil|].
  case_bool_decide as Hu; simpl; [done|].
  apply not_elem_of_cons. split; [by intros ->|done].
Qed.

(** C7. [removeFromCart(cart, U)]: in a cart whose uids are pairwise
    distinct, if the item at some place has uid [U], the result is the
    sequence without that one item, everything before and after it in the
    same order; no item of the result has uid [U]; and if no item has uid
    [U], the result has the same item sequence, hence the same uid list. *)
Theorem removeFromCart_excludes_uid (cart : Cart) (U : UID) :
  NoDup (uids cart) →
  (∀ before item behind,
     items cart = before ++ item :: behind → uid item = U →
     items (removeFromCart cart U) = before ++ behind) ∧
  (U ∉ uids (removeFromCart cart U)) ∧
  (U ∉ uids cart →
     items (removeFromCart cart U) = items cart ∧
     uids (removeFromCart cart U) = uids cart).
Proof.
  intros Hnodup. unfold uids in *. simpl.
  split_and!.
  - intros before item behind Hitems Hu. rewrite Hitems in *.
    rewrite fmap_app, fmap_cons, Hu in Hnodup.
    apply NoDup_app in Hnodup as (_ & Hbefore & Hrest).
    apply NoDup_cons in Hrest as [Hbehind _].
    rewrite List.filter_app. simpl.
    rewrite bool_decide_eq_true_2 by done. simpl.
    rewrite !filter_absent_uid; [done|done|].
    intros Hin. apply (Hbefore U Hin). by left.
  - apply filter_uid_gone.
  - intros Hout. by rewrite filter_absent_uid.
Qed.

Lemma removeFromCart_excludes_uid_witness :
  uids (removeFromCart sampleCart 7) = [5; 8] ∧
  uids (removeFromCart sampleCart 9) = uids sampleCart.
Proof.
  assert (NoDup (uids sampleCart)) as Hnodup.
  { apply NoDup_ListNoDup. repeat constructor; simpl; intuition discriminate. }
  split.
  - destruct (removeFromCart_excludes_uid sampleCart 7 Hnodup) as (H & _ & _).
    unfold uids.
    by rewrite (H [mkItemInstance 5 "2" 1 []] sampleItem
                  [mkItemInstance 8 "1:1:0" 2 []] eq_refl eq_refl).
  - destruct (removeFromCart_excludes_uid sampleCart 9 Hnodup) as (_ & _ & H).
    apply H. intros Hin%list_elem_of_In. simpl in Hin.
    intuition discriminate.
Defined.

(** * Further properties of [MatrixEntityBuilder] *)

Lemma JSMap_get_keys (m : JSMap.t) (k : Z) :
  JSMap.get m k = None ↔ k ∉ JSMap.keys m.
Proof.
  unfold JSMap.keys. induction m as [|[k' v] rest IH]; simpl.
  - split; [intros _; apply not_elem_of_nil | done].
  - rewrite not_elem_of_cons. destruct (decide (k' = k)) as [->|Hne].
    + split; [done | by intros [? _]].
    + rewrite IH. split; [by intros ?; split | by intros [_ ?]].
Qed.

Lemma hasPID_eq (this : MatrixEntityBuilder) :
  hasPID this = (Return (bool_decide (pid this ≠ None)), this).
Proof. done. Qed.

Lemma after_pid (cs : list call) (this : MatrixEntityBuilder) :
  pid (after cs this) =
  match pid this with Some p => Some p | None => firstPID cs end.
Proof.
  revert this. induction cs as [|c cs IH]; intros this; simpl.
  - by destruct (pid this).
  - rewrite IH. destruct c as [p|a]; simpl.
    + destruct (pid this) as [existing|] eqn:Hp.
      * rewrite (setPID_taken _ existing) by done. simpl. by rewrite Hp.
      * by rewrite setPID_fresh.
    + change (addAttribute a this) with (invoke (CallAddAttribute a) this).
      destruct (invoke_cases (CallAddAttribute a) this)
        as [[-> _]|[(q & ? & _)|(a' & co & _ & _ & _ & _ & ->)]]; done.
Qed.

Lemma after_get (cs : list call) (this : MatrixEntityBuilder) (d : DID) :
  JSMap.get (dimensionIdToAttribute (after cs this)) d =
  match JSMap.get (dimensionIdToAttribute this) d with
  | Some a => Some a
  | None => firstAttribute (info this) d cs
  end.
Proof.
  revert this. induction cs as [|c cs IH]; intros this; simpl.
  - by destruct (JSMap.get _ d).
  - rewrite IH. destruct c as [p|a]; simpl.
    + destruct (pid this) as [existing|] eqn:Hp.
      * by rewrite (setPID_taken _ existing).
      * by rewrite setPID_fresh.
    + unfold dimensionOf.
      destruct (getAttributeCoordinates (info this) a) as [co|] eqn:Hco; simpl.
      * destruct (JSMap.has (dimensionIdToAttribute this)
                    (dimension_id (dimension co))) eqn:Hhas.
        -- rewrite (addAttribute_filled _ _ co) by done. cbn [snd].
           destruct (JSMap.get (dimensionIdToAttribute this) d) eqn:Hd; [done|].
           rewrite decide_False; [done|]. intros [= <-].
           apply JSMap_has_get in Hd. congruence.
        -- rewrite (addAttribute_free _ _ co) by done.
           cbn [snd info dimensionIdToAttribute].
           rewrite <-(JSMap_set_fresh _ _ a Hhas).
           destruct (decide (dimension_id (dimension co) = d)) as [<-|Hne].
           ++ rewrite JSMap_get_set_eq, decide_True by done.
              apply JSMap_has_get in Hhas. by rewrite Hhas.
           ++ rewrite JSMap_get_set_ne by done.
              rewrite decide_False; [done|]. by intros [= ?].
      * rewrite addAttribute_unknown by done. cbn [snd].
        by destruct (JSMap.get (dimensionIdToAttribute this) d).
Qed.

Lemma firstPID_Some_iff (cs : list call) :
  is_Some (firstPID cs) ↔ ∃ p, CallSetPID p ∈ cs.
Proof.
  induction cs as [|[q|a] cs IH]; simpl.
  - split; [by intros [? ?]|]. intros [p Hin]. by apply not_elem_of_nil in Hin.
  - split; [|by eauto]. intros _. exists q. by left.
  - rewrite IH. split; intros [p Hin]; exists p.
    + by right.
    + by apply elem_of_cons in Hin as [?|?].
Qed.

(** X1. On a builder that went through any history of calls, [hasPID()]
    answers [true] exactly when [setPID] was called at some point, and
    [false] exactly when it never was; it leaves the builder as it is. *)
Theorem hasPID_iff_setPID_called (i : AttributeInfo) (cs : list call) :
  let this := after cs (newBuilder i) in
  (hasPID this = (Return true, this) ↔ ∃ p, CallSetPID p ∈ cs) ∧
  (hasPID this = (Return false, this) ↔ ∀ p, CallSetPID p ∉ cs).
Proof.
  intros this. rewrite hasPID_eq.
  assert (pid this = firstPID cs) as -> by apply (after_pid cs (newBuilder i)).
  rewrite <-firstPID_Some_iff.
  assert ((∀ p, CallSetPID p ∉ cs) ↔ ¬ is_Some (firstPID cs)) as ->.
  { rewrite firstPID_Some_iff.
    split; [intros H [p Hp]; by apply (H p) | intros H p Hp; apply H; by exists p]. }
  destruct (firstPID cs) as [p|]; simpl.
  - split; split.
    + by eauto.
    + done.
    + discriminate.
    + intros H. destruct H. by eauto.
  - split; split.
    + discriminate.
    + by intros [? ?].
    + by intros _ [? ?].
    + done.
Qed.

Lemma hasPID_iff_setPID_called_witness :
  hasPID (after [CallAddAttribute small; CallSetPID 1] (newBuilder coneInfo)) =
    (Return true, after [CallAddAttribute small; CallSetPID 1] (newBuilder coneInfo)).
Proof.
  apply (hasPID_iff_setPID_called coneInfo [CallAddAttribute small; CallSetPID 1]).
  exists 1. apply list_elem_of_In. simpl. by right; left.
Defined.

(** X2. Whatever the history, the entity of a builder is the argument of
    the first [setPID] call: a later [setPID(q)] throws a TypeError naming
    that first argument and [q], and if [setPID] was never called,
    [setPID(q)] answers [true]. *)
Theorem first_setPID_wins (i : AttributeInfo) (cs : list call) (q : PID) :
  let this := after cs (newBuilder i) in
  pid this = firstPID cs ∧
  (∀ p, firstPID cs = Some p →
        setPID q this =
          (Throw (TypeError ("attempting to overwrite entity " +:+ pretty p
                             +:+ " with " +:+ pretty q)), this)) ∧
  (firstPID cs = None → (setPID q this).1 = Return true).
Proof.
  intros this.
  assert (pid this = firstPID cs) as Hpid by apply (after_pid cs (newBuilder i)).
  split_and!; [done| |].
  - intros p Hp. apply setPID_taken. by rewrite Hpid.
  - intros Hp. rewrite setPID_fresh; [done|]. by rewrite Hpid.
Qed.

Lemma first_setPID_wins_witness :
  setPID 4 (after [CallSetPID 1; CallSetPID 2; CallAddAttribute small; CallSetPID 3]
                  (newBuilder coneInfo)) =
    (Throw (TypeError "attempting to overwrite entity 1 with 4"),
     after [CallSetPID 1; CallSetPID 2; CallAddAttribute small; CallSetPID 3]
           (newBuilder coneInfo)).
Proof.
  destruct (first_setPID_wins coneInfo
    [CallSetPID 1; CallSetPID 2; CallAddAttribute small; CallSetPID 3] 4)
    as (_ & H & _).
  exact (H 1 eq_refl).
Defined.

(** The invariant of reachable builders: the keys of the map are pairwise
    distinct. *)
Lemma invoke_keys_NoDup (c : call) (this : MatrixEntityBuilder) :
  NoDup (JSMap.keys (dimensionIdToAttribute this)) →
  NoDup (JSMap.keys (dimensionIdToAttribute (invoke c this).2)).
Proof.
  intros Hnodup.
  destruct (invoke_cases c this)
    as [[-> _]|[(q & _ & _ & ->)|(a & co & _ & _ & Hhas & _ & ->)]];
    [done | done |].
  unfold JSMap.keys in *; simpl. rewrite fmap_app; simpl.
  apply NoDup_app. split_and!; [done| |apply NoDup_singleton].
  intros k Hin ->%list_elem_of_singleton.
  apply JSMap_has_get, JSMap_get_keys in Hhas. by apply Hhas.
Qed.

Lemma after_keys_NoDup (cs : list call) (this : MatrixEntityBuilder) :
  NoDup (JSMap.keys (dimensionIdToAttribute this)) →
  NoDup (JSMap.keys (dimensionIdToAttribute (after cs this))).
Proof.
  revert this. induction cs as [|c cs IH]; intros this H; simpl; [done|].
  by apply IH, invoke_keys_NoDup.
Qed.

Lemma entriesAgree_dimensions (this : MatrixEntityBuilder) :
  entriesAgree this →
  dimensionOf (info this) <$> JSMap.values (dimensionIdToAttribute this) =
  Some <$> JSMap.keys (dimensionIdToAttribute this).
Proof.
  unfold entriesAgree, JSMap.entries, JSMap.values, JSMap.keys.
  induction 1 as [|[d a] rest Hhd _ IH]; [done|].
  rewrite !fmap_cons. cbn [fst snd] in *. by rewrite Hhd, IH.
Qed.

(** X3. Over the whole life of a builder, [addAttribute] answers [true]
    for at most one attribute of each dimension: the collected attributes
    have a dimension each, these dimensions are pairwise distinct (so are
    the attributes), and they are the keys of the builder's map, in
    order. *)
Theorem collected_dimensions_distinct (i : AttributeInfo) (cs : list call) :
  let this := after cs (newBuilder i) in
  dimensionOf i <$> collected cs (newBuilder i) =
    Some <$> JSMap.keys (dimensionIdToAttribute this) ∧
  NoDup (dimensionOf i <$> collected cs (newBuilder i)) ∧
  NoDup (collected cs (newBuilder i)).
Proof.
  intros this.
  assert (info this = i) as Hi by apply after_info.
  assert (entriesAgree this) as Hagree.
  { apply after_entriesAgree. by apply Forall_nil. }
  assert (JSMap.values (dimensionIdToAttribute this)
          = collected cs (newBuilder i)) as Hvalues.
  { apply (after_collected cs (newBuilder i)). }
  assert (NoDup (JSMap.keys (dimensionIdToAttribute this))) as Hkeys.
  { apply after_keys_NoDup. apply NoDup_nil_2. }
  apply entriesAgree_dimensions in Hagree. rewrite Hi, Hvalues in Hagree.
  assert (NoDup (dimensionOf i <$> collected cs (newBuilder i))) as Hdims.
  { rewrite Hagree. by apply (NoDup_fmap_2 Some). }
  split_and!; [done | done |]. by apply NoDup_fmap_1 in Hdims.
Qed.

Lemma JSMap_get_elem_of (m : JSMap.t) (d a : Z) :
  NoDup (JSMap.keys m) → JSMap.get m d = Some a ↔ (d, a) ∈ m.
Proof.
  unfold JSMap.keys. induction m as [|[k v] rest IH]; simpl.
  - intros _. split; [done|]. intros Hin. by apply not_elem_of_nil in Hin.
  - intros [Hk Hrest]%NoDup_cons. rewrite elem_of_cons.
    destruct (decide (k = d)) as [->|Hne].
    + split; [intros [= ->]; by left|].
      intros [[= ->]|Hin]; [done|]. destruct Hk.
      apply list_elem_of_fmap. by exists (d, a).
    + rewrite (IH Hrest). split; [by right|].
      intros [[= ? ?]|Hin]; [congruence|done].
Qed.

(** X4. After any history, what the builder holds for a dimension is the
    first attribute of that dimension that was passed to [addAttribute];
    attributes passed later for the dimension, and [setPID] calls, do not
    change it. The collected attributes are exactly these first
    attributes. *)
Theorem dimension_holds_first_attribute (i : AttributeInfo) (cs : list call) :
  (∀ d, JSMap.get (dimensionIdToAttribute (after cs (newBuilder i))) d =
        firstAttribute i d cs) ∧
  (∀ a, a ∈ collected cs (newBuilder i) ↔ ∃ d, firstAttribute i d cs = Some a).
Proof.
  assert (∀ d, JSMap.get (dimensionIdToAttribute (after cs (newBuilder i))) d =
               firstAttribute i d cs) as Hget.
  { intros d. by rewrite after_get. }
  split; [done|]. intros a.
  assert (NoDup (JSMap.keys (dimensionIdToAttribute (after cs (newBuilder i)))))
    as Hkeys.
  { apply after_keys_NoDup. apply NoDup_nil_2. }
  pose proof (after_collected cs (newBuilder i)) as Hvalues. simpl in Hvalues.
  rewrite <-Hvalues. unfold JSMap.values. rewrite list_elem_of_fmap. split.
  - intros ([d a'] & -> & Hin). exists d. rewrite <-Hget.
    by apply JSMap_get_elem_of.
  - intros [d Hd]. exists (d, a). split; [done|].
    apply JSMap_get_elem_of; [done|]. by rewrite Hget.
Qed.

Lemma dimension_holds_first_attribute_witness :
  JSMap.get (dimensionIdToAttribute
               (after [CallAddAttribute medium; CallSetPID 1;
                       CallAddAttribute small; CallAddAttribute vanilla]
                      (newBuilder coneInfo))) 1 = Some medium.
Proof.
  destruct (dimension_holds_first_attribute coneInfo
    [CallAddAttribute medium; CallSetPID 1;
     CallAddAttribute small; CallAddAttribute vanilla]) as [H _].
  exact (H 1).
Defined.

Lemma collected_dimensions_distinct_witness :
  NoDup (collected [CallAddAttribute medium; CallAddAttribute small;
                    CallAddAttribute vanilla] (newBuilder coneInfo)).
Proof.
  apply (collected_dimensions_distinct coneInfo
    [CallAddAttribute medium; CallAddAttribute small; CallAddAttribute vanilla]).
Defined.

(** [addAttribute] does not look at the entity id. *)
Lemma addAttribute_any_pid (this : MatrixEntityBuilder) (o : option PID) (a : AID) :
  addAttribute a (mkBuilder (info this) o (dimensionIdToAttribute this)) =
  ((addAttribute a this).1,
   mkBuilder (info this) o (dimensionIdToAttribute (addAttribute a this).2)).
Proof.
  destruct (getAttributeCoordinates (info this) a) as [co|] eqn:Hco.
  - destruct (JSMap.has (dimensionIdToAttribute this)
                (dimension_id (dimension co))) eqn:Hhas.
    + by rewrite !(addAttribute_filled _ a co).
    + by rewrite !(addAttribute_free _ a co).
  - by rewrite !addAttribute_unknown.
Qed.

Lemma addAttribute_info_pid (this : MatrixEntityBuilder) (a : AID) :
  info (addAttribute a this).2 = info this ∧
  pid (addAttribute a this).2 = pid this.
Proof.
  split.
  - apply (invoke_info (CallAddAttribute a)).
  - apply (after_adds_pid [a]).
Qed.

(** X5. [setPID] and [addAttribute] do not interfere: made in either
    order they leave the same builder, and each answers (or throws) what
    it would without the other. *)
Theorem setPID_addAttribute_commute (this : MatrixEntityBuilder) (p : PID)
    (a : AID) :
  after [CallSetPID p; CallAddAttribute a] this =
    after [CallAddAttribute a; CallSetPID p] this ∧
  (setPID p (addAttribute a this).2).1 = (setPID p this).1 ∧
  (addAttribute a (setPID p this).2).1 = (addAttribute a this).1.
Proof.
  cbn [after invoke].
  destruct (addAttribute_info_pid this a) as [Hinfo Hpid].
  destruct (pid this) as [existing|] eqn:Hp.
  - rewrite (setPID_taken this existing p Hp).
    rewrite (setPID_taken _ existing p Hpid). done.
  - rewrite (setPID_fresh this p Hp), (setPID_fresh _ p Hpid). cbn [fst snd].
    rewrite addAttribute_any_pid, Hinfo. done.
Qed.

Lemma setPID_addAttribute_commute_witness :
  after [CallSetPID 1; CallAddAttribute small] (newBuilder coneInfo) =
  after [CallAddAttribute small; CallSetPID 1] (newBuilder coneInfo).
Proof.
  apply (setPID_addAttribute_commute (newBuilder coneInfo) 1 small).
Defined.

(** X6. Once [addAttribute] was called with an attribute of some
    dimension, every further [addAttribute] with an attribute of that
    dimension (the same attribute or another), whatever calls were made in
    between, answers [false] and leaves the builder as it is. *)
Theorem addAttribute_same_dimension_rejected (this : MatrixEntityBuilder)
    (a a' : AID) (d : DID) (cs : list call) :
  dimensionOf (info this) a = Some d →
  dimensionOf (info this) a' = Some d →
  addAttribute a' (after cs (addAttribute a this).2) =
    (Return false, after cs (addAttribute a this).2).
Proof.
  unfold dimensionOf. intros Ha Ha'.
  destruct (getAttributeCoordinates (info this) a) as [co|] eqn:Hco; [|done].
  destruct (getAttributeCoordinates (info this) a') as [co'|] eqn:Hco'; [|done].
  simpl in Ha, Ha'. injection Ha as Ha. injection Ha' as Ha'.
  assert (info (addAttribute a this).2 = info this) as Hinfo.
  { apply (invoke_info (CallAddAttribute a)). }
  assert (∃ held, JSMap.get (dimensionIdToAttribute (addAttribute a this).2) d
                  = Some held) as [held Hheld].
  { destruct (JSMap.has (dimensionIdToAttribute this)
                (dimension_id (dimension co))) eqn:Hhas.
    - rewrite (addAttribute_filled this a co) by done. simpl.
      rewrite Ha in Hhas. unfold JSMap.has in Hhas.
      destruct (JSMap.get (dimensionIdToAttribute this) d); [by eauto|done].
    - rewrite (addAttribute_free this a co) by done. simpl. exists a.
      rewrite <-(JSMap_set_fresh _ _ a Hhas), Ha.
      apply JSMap_get_set_eq. }
  apply (addAttribute_filled _ a' co').
  - by rewrite after_info, Hinfo.
  - rewrite Ha'. unfold JSMap.has.
    by rewrite (after_get_kept cs _ d held Hheld).
Qed.

Lemma addAttribute_same_dimension_rejected_witness :
  addAttribute large
    (after [CallSetPID 1; CallAddAttribute vanilla; CallAddAttribute 99]
           (addAttribute small (newBuilder coneInfo)).2) =
    (Return false,
     after [CallSetPID 1; CallAddAttribute vanilla; CallAddAttribute 99]
           (addAttribute small (newBuilder coneInfo)).2) ∧
  addAttribute small (after [] (addAttribute small (newBuilder coneInfo)).2) =
    (Return false, after [] (addAttribute small (newBuilder coneInfo)).2).
Proof.
  split.
  - apply (addAttribute_same_dimension_rejected (newBuilder coneInfo)
             small large 1); reflexivity.
  - apply (addAttribute_same_dimension_rejected (newBuilder coneInfo)
             small small 1); reflexivity.
Defined.

(** X7. A call changes the builder exactly when it answers [true]: a call
    that throws or answers [false] can be dropped from a history without
    changing where the history leads. *)
Theorem call_changes_builder_iff_true (c : call) (this : MatrixEntityBuilder)
    (cs : list call) :
  ((invoke c this).2 ≠ this ↔ (invoke c this).1 = Return true) ∧
  ((invoke c this).1 ≠ Return true → after (c :: cs) this = after cs this).
Proof.
  assert ((invoke c this).2 ≠ this ↔ (invoke c this).1 = Return true) as Hiff.
  { destruct c as [p|a]; simpl.
    - destruct (pid this) as [existing|] eqn:Hp.
      + rewrite (setPID_taken _ existing) by done. simpl. split; done.
      + rewrite setPID_fresh by done. simpl. split; [done|].
        intros _ Heq. rewrite <-Heq in Hp. done.
    - destruct (getAttributeCoordinates (info this) a) as [co|] eqn:Hco.
      + destruct (JSMap.has (dimensionIdToAttribute this)
                    (dimension_id (dimension co))) eqn:Hhas.
        * rewrite (addAttribute_filled _ _ co) by done. simpl. split; done.
        * rewrite (addAttribute_free _ _ co) by done. simpl. split; [done|].
          intros _ Heq. apply (f_equal dimensionIdToAttribute) in Heq.
          simpl in Heq. apply (f_equal length) in Heq.
          rewrite length_app in Heq. simpl in Heq. lia.
      + rewrite addAttribute_unknown by done. simpl. split; done. }
  split; [done|]. intros Hno. cbn [after].
  destruct (invoke_cases c this)
    as [[-> _]|[(q & -> & Hp & _)|(a & co & _ & _ & _ & Hres & _)]];
    [done| |done].
  destruct Hno. simpl. by rewrite setPID_fresh.
Qed.

Lemma call_changes_builder_iff_true_witness :
  after [CallAddAttribute 99; CallAddAttribute small] (newBuilder coneInfo) =
  after [CallAddAttribute small] (newBuilder coneInfo).
Proof.
  apply (call_changes_builder_iff_true (CallAddAttribute 99)
           (newBuilder coneInfo) [CallAddAttribute small]).
  discriminate.
Defined.

(** X8. [hasPID], [getKey] and [setPID] agree on whether the entity is
    set: [hasPID()] answers [false] exactly when [getKey()] throws "no pid
    set", which is exactly when [setPID] would answer [true]; and
    [hasPID()] answers [true] exactly when [setPID] would throw. *)
Theorem hasPID_getKey_setPID_agree (tok : AttributeInfo → AID → string)
    (wild : string) (this : MatrixEntityBuilder) (p : PID) :
  (hasPID this = (Return false, this) ↔
     getKey tok wild this = (Throw (TypeError "no pid set"), this)) ∧
  (hasPID this = (Return false, this) ↔ (setPID p this).1 = Return true) ∧
  (hasPID this = (Return true, this) ↔ ∃ e, (setPID p this).1 = Throw e).
Proof.
  rewrite getKey_unset_iff, hasPID_eq.
  destruct (pid this) as [existing|] eqn:Hp.
  - rewrite (setPID_taken _ existing) by done.
    rewrite bool_decide_eq_true_2 by done. simpl.
    split_and!; split; try done. by eauto.
  - rewrite setPID_fresh by done.
    rewrite bool_decide_eq_false_2 by (by intros H). simpl.
    split_and!; split; try done. by intros [e ?].
Qed.

Lemma hasPID_getKey_setPID_agree_witness :
  hasPID (after [CallAddAttribute small] (newBuilder coneInfo)) =
    (Return false, after [CallAddAttribute small] (newBuilder coneInfo)).
Proof.
  apply (hasPID_getKey_setPID_agree positionToken digitsToken
           (after [CallAddAttribute small] (newBuilder coneInfo)) 1).
  reflexivity.
Defined.

Lemma yieldUnused_sublist (matrix : Matrix) (entries : list (DID * AID)) :
  yieldUnused matrix entries `sublist_of` entries.*2.
Proof.
  induction entries as [|[did aid] rest IH]; simpl; [done|].
  destruct (negb (hasDimension matrix did)).
  - by apply sublist_skip.
  - by apply sublist_cons.
Qed.

(** X9. [getUnusedAttributes()] yields no attribute id twice, yields only
    collected attribute ids, and keeps their order. *)
Theorem getUnusedAttributes_no_repeats (i : AttributeInfo) (cs : list call) :
  let this := after cs (newBuilder i) in
  ∃ unused,
    getUnusedAttributes this = (Return unused, this) ∧
    NoDup unused ∧
    unused `sublist_of` collected cs (newBuilder i).
Proof.
  intros this. eexists. split; [apply getUnusedAttributes_eq|].
  assert (JSMap.values (dimensionIdToAttribute this)
          = collected cs (newBuilder i)) as Hvalues.
  { apply (after_collected cs (newBuilder i)). }
  assert (yieldUnused (resolvedMatrix this)
            (JSMap.entries (dimensionIdToAttribute this))
          `sublist_of` collected cs (newBuilder i)) as Hsub.
  { rewrite <-Hvalues. apply yieldUnused_sublist. }
  split; [|done].
  apply (sublist_NoDup _ (collected cs (newBuilder i))); [|done].
  assert (NoDup (JSMap.keys (dimensionIdToAttribute this))) as Hkeys.
  { apply after_keys_NoDup. apply NoDup_nil_2. }
  assert (entriesAgree this) as Hagree.
  { apply after_entriesAgree. by apply Forall_nil. }
  apply entriesAgree_dimensions in Hagree. rewrite Hvalues in Hagree.
  apply (NoDup_fmap_1 (dimensionOf (info this))).
  rewrite Hagree. by apply (NoDup_fmap_2 Some).
Qed.

Lemma getUnusedAttributes_no_repeats_witness :
  ∃ unused,
    getUnusedAttributes
      (after [CallAddAttribute 31; CallAddAttribute 30; CallAddAttribute small]
             (newBuilder coneInfo)) =
      (Return unused,
       after [CallAddAttribute 31; CallAddAttribute 30; CallAddAttribute small]
             (newBuilder coneInfo)) ∧
    NoDup unused.
Proof.
  destruct (getUnusedAttributes_no_repeats coneInfo
    [CallAddAttribute 31; CallAddAttribute 30; CallAddAttribute small])
    as (unused & Hcall & Hnodup & _).
  exists unused. split; [exact Hcall | exact Hnodup].
Defined.

(** * The printing loop of the cart test script *)

Lemma pairs_ind {A : Type} (P : list A → Prop) :
  P [] → (∀ a, P [a]) → (∀ a b l, P l → P (a :: b :: l)) → ∀ l, P l.
Proof.
  intros Hnil Hone Hstep l.
  assert (P l ∧ ∀ a, P (a :: l)) as [H _]; [|done].
  induction l as [|b l [IH1 IH2]]; [by split|].
  split; [apply IH2|]. intros a. by apply Hstep.
Qed.

Lemma evenPositions_lookup {A : Type} (l : list A) (k : nat) :
  evenPositions l !! k = l !! (2 * k)%nat.
Proof.
  revert k. induction l as [|a|a b l IH] using pairs_ind; intros k.
  - by rewrite !lookup_nil.
  - destruct k as [|k]; [done|]. simpl.
    by replace (k + S (k + 0))%nat with (S (2 * k)) by lia.
  - destruct k as [|k]; [done|].
    replace (2 * S k)%nat with (S (S (2 * k))) by lia. simpl. apply IH.
Qed.

Lemma evenPositions_length {A : Type} (l : list A) :
  length (evenPositions l) = ((length l + 1) / 2)%nat.
Proof.
  induction l as [|a|a b l IH] using pairs_ind; [done|done|].
  cbn [evenPositions length]. rewrite IH.
  replace (S (S (length l)) + 1)%nat with ((length l + 1) + 1 * 2)%nat by lia.
  rewrite Nat.div_add by lia. lia.
Qed.

Lemma printLoop_done (fuel : nat) (gen : generator) (console : list logged) :
  printLoop fuel true gen console = Some (gen, console).
Proof. by destruct fuel. Qed.

(** The loop from any console: how many turns it takes, and what it
    appends. *)
Lemma printLoop_run (gen : generator) (console : list logged) (fuel : nat) :
  (fuel ≤ length gen / 2)%nat ∧ printLoop fuel false gen console = None ∨
  (length gen / 2 < fuel)%nat ∧
  ∃ appended,
    printLoop fuel false gen console = Some ([], console ++ appended) ∧
    loggedValues appended =
      (Some <$> evenPositions gen)
        ++ (if Nat.even (length gen) then [None] else []) ∧
    length appended = (2 * (length gen / 2 + 1))%nat.
Proof.
  revert console fuel.
  induction gen as [|a|a b gen IH] using pairs_ind; intros console fuel.
  - destruct fuel as [|fuel]; [left; by split|right].
    split; [simpl; lia|].
    exists [LogText "NEXT VALUE:"; LogValue None].
    cbn [printLoop printTurn next value done].
    by rewrite printLoop_done, <-app_assoc.
  - destruct fuel as [|fuel]; [left; by split|right].
    split; [simpl; lia|].
    exists [LogText "NEXT VALUE:"; LogValue (Some a)].
    cbn [printLoop printTurn next value done].
    by rewrite printLoop_done, <-app_assoc.
  - assert (length (a :: b :: gen) / 2 = S (length gen / 2))%nat as Hlen.
    { cbn [length].
      replace (S (S (length gen))) with (length gen + 1 * 2)%nat by lia.
      rewrite Nat.div_add by lia. lia. }
    rewrite Hlen. destruct fuel as [|fuel]; [left; split; [lia|done]|].
    cbn [printLoop printTurn next value done].
    destruct (IH ((console ++ [LogText "NEXT VALUE:"]) ++ [LogValue (Some a)])
                 fuel) as [[Hle Hnone]|(Hlt & appended & Hrun & Hvalues & Hlength)].
    + left. split; [lia|done].
    + right. split; [lia|].
      exists (LogText "NEXT VALUE:" :: LogValue (Some a) :: appended).
      split_and!.
      * rewrite Hrun. by rewrite <-!app_assoc.
      * cbn [loggedValues evenPositions fmap list_fmap app length Nat.even].
        by rewrite Hvalues.
      * cbn [length]. lia.
Qed.

Lemma printResults_run (gen : generator) (fuel : nat) :
  (fuel ≤ length gen / 2)%nat ∧ printResults fuel gen = None ∨
  (length gen / 2 < fuel)%nat ∧
  ∃ console,
    printResults fuel gen = Some ([], console) ∧
    loggedValues console =
      (Some <$> evenPositions gen)
        ++ (if Nat.even (length gen) then [None] else []) ∧
    length console = (2 * (length gen / 2 + 1))%nat.
Proof. apply (printLoop_run gen [] fuel). Qed.

Lemma printedItems_evenPositions (gen : generator) (console : list logged) :
  loggedValues console =
    (Some <$> evenPositions gen)
      ++ (if Nat.even (length gen) then [None] else []) →
  printedItems console = evenPositions gen.
Proof.
  unfold printedItems. intros ->. rewrite omap_app.
  assert (∀ l : list ItemInstance, omap id (Some <$> l) = l) as Hsome.
  { induction l as [|x l IH]; [done|]. simpl. f_equal. apply IH. }
  rewrite Hsome. destruct (Nat.even (length gen)); simpl; by rewrite app_nil_r.
Qed.

(** X12. [printResults] stops on every generator that yields finitely many
    items: with [n] items the loop makes exactly [n / 2 + 1] turns (fewer
    do not reach [done]), leaves the generator exhausted, and writes two
    lines per turn. *)
Theorem printResults_turns (gen : generator) (fuel : nat) :
  (printResults fuel gen = None ↔ (fuel ≤ length gen / 2)%nat) ∧
  ((length gen / 2 < fuel)%nat →
   ∃ console, printResults fuel gen = Some ([], console) ∧
              length console = (2 * (length gen / 2 + 1))%nat).
Proof.
  destruct (printResults_run gen fuel)
    as [[Hle Hnone]|(Hlt & console & Hrun & _ & Hlength)].
  - split; [by split|]. lia.
  - split; [|by eauto]. rewrite Hrun. split; [done|lia].
Qed.

Lemma printResults_turns_witness :
  ∃ console, printResults 2 (items sampleCart) = Some ([], console) ∧
             length console = 4%nat.
Proof.
  destruct (printResults_turns (items sampleCart) 2) as [_ H].
  apply H. simpl. lia.
Defined.

(** X13. [printResults] prints every other item: the [k]-th item it prints
    is the item the generator yields at position [2k], so it prints
    [(n + 1) / 2] of [n] items, and an item yielded at an odd position (the
    second, the fourth, ...) is not printed, the yielded items being
    distinct. *)
Theorem printResults_prints_every_other (fuel : nat) (gen rest : generator)
    (console : list logged) :
  printResults fuel gen = Some (rest, console) →
  (∀ k : nat, printedItems console !! k = gen !! (2 * k)%nat) ∧
  length (printedItems console) = ((length gen + 1) / 2)%nat ∧
  (NoDup gen → ∀ (k : nat) item, gen !! (2 * k + 1)%nat = Some item →
               item ∉ printedItems console).
Proof.
  intros Hrun.
  destruct (printResults_run gen fuel)
    as [[_ Hnone]|(_ & console' & Hrun' & Hvalues & _)]; [congruence|].
  rewrite Hrun in Hrun'. injection Hrun' as -> ->.
  apply printedItems_evenPositions in Hvalues. rewrite Hvalues.
  split_and!.
  - apply evenPositions_lookup.
  - apply evenPositions_length.
  - intros Hnodup k item Hodd Hin.
    apply list_elem_of_lookup in Hin as [j Hj].
    rewrite evenPositions_lookup in Hj.
    pose proof (NoDup_lookup _ _ _ _ Hnodup Hodd Hj). lia.
Qed.

Lemma printResults_prints_every_other_witness :
  ∃ console, printResults 5 (items sampleCart) = Some ([], console) ∧
             length (printedItems console) = 2%nat.
Proof.
  eexists. split; [reflexivity|].
  apply (printResults_prints_every_other 5 (items sampleCart) []).
  reflexivity.
Defined.


